(** * unionix: helpers for discriminated unions

    A shallow embedding of the library's source, [index.ts] (the helper
    factory [create] and the ten core operations it binds), and the
    properties that its specification states about them.

    Conventions of the embedding.
    - A JavaScript string is a [string]; the only operation of the source
      that looks inside characters is [toLowerCase] on a first character,
      which is modelled on ASCII text (see [ascii_text]).
    - A plain JavaScript object is the finite map of its own enumerable
      properties, [gmap string _]; a property read [o[key]] also consults
      [Object.prototype], which every object literal inherits from
      (see [get]).
    - Handlers, predicates and default handlers are the caller's functions;
      they are total functions here, so an exception is always one that the
      library's own code raises. *)

From Stdlib Require Import Ascii String.
From stdpp Require Import gmap strings list fin_maps.

Open Scope string_scope.

(** ** JavaScript values and objects *)

(** The values stored in the fields of a tagged value. No operation of the
    library inspects a field other than [type], so primitives are enough. *)
Inductive val : Type :=
| VUndefined
| VNull
| VBoolean (b : bool)
| VNumber (n : Z)
| VString (s : string).

#[global] Instance val_eq_dec : EqDecision val.
Proof. solve_decision. Defined.

(** [DiscriminatedUnion = { readonly type: string }]: an object whose own
    property [type] holds a string. [fields] are all the own properties of
    the object, [type] included. *)
Record Union : Type := mkUnion {
  fields : gmap string val;
  type : string;
  type_field : fields !! "type" = Some (VString type)
}.

(** An item of an object literal [{ a, ...b, c: e }]. *)
Inductive initializer : Type :=
| Spread (source : gmap string val)
| KeyValue (key : string) (v : val).

(** Evaluation of an object literal: the items are applied from left to
    right to a fresh object, a later item overwriting an earlier one. *)
Definition define (o : gmap string val) (item : initializer) : gmap string val :=
  match item with
  | Spread source => source ∪ o
  | KeyValue key v => <[key := v]> o
  end.

Definition object_literal (items : list initializer) : gmap string val :=
  foldl define ∅ items.

(** The names every object literal inherits from [Object.prototype]. *)
Definition Object_prototype : list string :=
  [ "constructor"; "__defineGetter__"; "__defineSetter__"; "hasOwnProperty";
    "__lookupGetter__"; "__lookupSetter__"; "isPrototypeOf";
    "propertyIsEnumerable"; "toString"; "valueOf"; "__proto__";
    "toLocaleString" ].

(** The result of the property read [o[key]] on an object literal [o]. *)
Inductive property (A : Type) : Type :=
| Own (a : A)
| Inherited (member : string)
| Undefined.
Arguments Own {A} a.
Arguments Inherited {A} member.
Arguments Undefined {A}.

Definition get {A : Type} (o : gmap string A) (key : string) : property A :=
  match o !! key with
  | Some a => Own a
  | None => if bool_decide (key ∈ Object_prototype) then Inherited key else Undefined
  end.

(** Truthiness of what a property read gave. Own entries are functions or
    arrays, inherited members are functions (or [Object.prototype] itself
    for [__proto__]): all truthy. Only [undefined] is falsy. *)
Definition truthy {A : Type} (p : property A) : bool :=
  match p with
  | Own _ | Inherited _ => true
  | Undefined => false
  end.

(** ** Completions *)

Inductive exn : Type :=
| Error (message : string)
| TypeError.

(** How a call of the library ends: it returns, it throws, or it has called
    the built-in member of [Object.prototype] that a property read found in
    place of a handler, and ends as that built-in does. *)
Inductive completion (R : Type) : Type :=
| Return (r : R)
| Throw (e : exn)
| CallBuiltin (member : string) (argument : Union).
Arguments Return {R} r.
Arguments Throw {R} e.
Arguments CallBuiltin {R} member argument.

(** Sequencing. A call that went to a built-in is not followed further; the
    two operations that sequence calls, [filterBy] and [partition], never
    make one (lemmas [filterBy_returns] and [partition_step_returns]). *)
Definition bind {A B : Type} (c : completion A) (k : A → completion B) : completion B :=
  match c with
  | Return a => k a
  | Throw e => Throw e
  | CallBuiltin m v => CallBuiltin m v
  end.

(** What [CallBuiltin member value] amounts to. The library calls what it
    read as [handler(value)], so the built-in runs with [this] undefined:
    [Object(value)] returns the object it is given, [toString] answers for
    its [this], [__proto__] is not a function, and every other member fails
    to convert its [this] to an object. *)
Inductive js_value : Type :=
| JObject (o : Union)
| JString (s : string).

Definition Object_prototype_call (member : string) (argument : Union)
  : js_value + exn :=
  if bool_decide (member = "constructor") then inl (JObject argument)
  else if bool_decide (member = "toString") then inl (JString "[object Undefined]")
  else inr TypeError.

(** ** The core operations *)

Section Dispatch.
Context {R : Type}.

Definition createWhenFunction (value : Union) (handlers : gmap string (Union → R))
  : completion R :=
  let key := type value in
  match get handlers key with
  | Undefined => Throw (Error ("No handler found for type: " +:+ type value))
  | Own handler => Return (handler value)
  | Inherited member => CallBuiltin member value
  end.

Definition createMatchFunction (value : Union) (handlers : gmap string (Union → R))
  : completion R :=
  let key := type value in
  match get handlers key with
  | Undefined => Throw (Error ("No handler found for type: " +:+ type value))
  | Own handler => Return (handler value)
  | Inherited member => CallBuiltin member value
  end.

Definition createFoldFunction (value : Union) (handlers : gmap string (Union → R))
    (defaultHandler : Union → R) : completion R :=
  let key := type value in
  match get handlers key with
  | Own handler => Return (handler value)
  | Inherited member => CallBuiltin member value
  | Undefined => Return (defaultHandler value)
  end.
End Dispatch.

Definition createMapFunction (value : Union) (handlers : gmap string (Union → Union))
  : completion Union :=
  let key := type value in
  match get handlers key with
  | Own handler => Return (handler value)
  | Inherited member => CallBuiltin member value
  | Undefined => Return value
  end.

Definition createTransformFunction (value : Union) (handlers : gmap string (Union → Union))
  : completion Union :=
  let key := type value in
  match get handlers key with
  | Own handler => Return (handler value)
  | Inherited member => CallBuiltin member value
  | Undefined => Return value
  end.

Definition createGetTypeFunction (value : Union) : string := type value.

(** ** Filtering and grouping *)

(** The second argument of [filter]: [types: K | readonly K[]]. *)
Inductive selector : Type :=
| One (k : string)
| Many (ks : list string).

Definition createFilterFunction (values : list Union) (types : selector) : list Union :=
  let allowedTypes : gset string :=
    list_to_set (match types with Many ks => ks | One k => [k] end) in
  List.filter (λ value, bool_decide (type value ∈ allowedTypes)) values.

(** [Object.keys(o)]: the names of the own enumerable properties. *)
Definition Object_keys {A : Type} (o : gmap string A) : list string :=
  (map_to_list o).*1.

(** [values.filter(callback)] for a callback that may not return. *)
Fixpoint Array_filter (callback : Union → completion bool) (values : list Union)
  : completion (list Union) :=
  match values with
  | [] => Return []
  | value :: rest =>
      bind (callback value) (λ keep,
      bind (Array_filter callback rest) (λ kept,
      Return (if keep then value :: kept else kept)))
  end.

Definition createFilterByFunction (values : list Union)
    (predicates : gmap string (Union → bool)) : completion (list Union) :=
  let allowedTypes : gset string := list_to_set (Object_keys predicates) in
  Array_filter
    (λ value,
       if bool_decide (type value ∈ allowedTypes) then
         match get predicates (type value) with
         | Own predicate => Return (predicate value)
         | Inherited member => CallBuiltin member value
         | Undefined => Return false
         end
       else Return false)
    values.

(** One turn of the loop of [partition]: [if (!result[key]) result[key] = [];
    result[key].push(value)]. What [result[key]] inherits from
    [Object.prototype] is truthy and has no [push], so calling it is a
    [TypeError]. *)
Definition partition_step (result : gmap string (list Union)) (value : Union)
  : completion (gmap string (list Union)) :=
  let key := type value in
  let result := if truthy (get result key) then result else <[key := []]> result in
  match get result key with
  | Own group => Return (<[key := (group ++ [value])%list]> result)
  | Inherited _ => Throw TypeError
  | Undefined => Throw TypeError
  end.

Fixpoint for_of {S : Type} (body : S → Union → completion S) (values : list Union)
    (state : S) : completion S :=
  match values with
  | [] => Return state
  | value :: rest => bind (body state value) (for_of body rest)
  end.

Definition createPartitionFunction (values : list Union)
  : completion (gmap string (list Union)) :=
  for_of partition_step values ∅.

(** ** Constructors *)

(** [(data) => ({ ...data, type })]. *)
Definition createConstructorFunction (type : string) (data : gmap string val) : Union.
Proof.
  refine (mkUnion (object_literal [Spread data; KeyValue "type" (VString type)]) type _).
  apply lookup_insert_eq.
Defined.

(** ** Type guards *)

(** Case mapping of one character, on ASCII letters. *)
Definition toLowerCase (c : ascii) : ascii :=
  let n := nat_of_ascii c in
  if ((65 <=? n) && (n <=? 90))%nat then ascii_of_nat (n + 32) else c.

Definition toUpperCase (c : ascii) : ascii :=
  let n := nat_of_ascii c in
  if ((97 <=? n) && (n <=? 122))%nat then ascii_of_nat (n - 32) else c.

(** The strings on which [toLowerCase] and [toUpperCase] above are the
    JavaScript ones: every character is an ASCII character. *)
Definition ascii_text (s : string) : bool :=
  forallb (λ c, (nat_of_ascii c <? 128)%nat) (list_ascii_of_string s).

(** [str.charAt(0)]: the first character as a string, or the empty string. *)
Definition charAt0 (str : string) : string :=
  match str with
  | EmptyString => ""
  | String c _ => String c ""
  end.

(** [str.slice(start)] for a start that is not negative. *)
Fixpoint slice (start : nat) (str : string) : string :=
  match start, str with
  | 0, _ => str
  | S _, EmptyString => ""
  | S start, String _ rest => slice start rest
  end.

Fixpoint String_toLowerCase (str : string) : string :=
  match str with
  | EmptyString => ""
  | String c rest => String (toLowerCase c) (String_toLowerCase rest)
  end.

Fixpoint String_toUpperCase (str : string) : string :=
  match str with
  | EmptyString => ""
  | String c rest => String (toUpperCase c) (String_toUpperCase rest)
  end.

Definition uncapitalize (str : string) : string :=
  String_toLowerCase (charAt0 str) +:+ slice 1 str.

(** TypeScript's intrinsic [Capitalize<S>], with which the type [TypeGuards]
    derives the name [is${Capitalize<K>}] of the guard of discriminator [K]. *)
Definition Capitalize (str : string) : string :=
  String_toUpperCase (charAt0 str) +:+ slice 1 str.

Definition guard_name (discriminator : string) : string :=
  "is" +:+ Capitalize discriminator.

(** The closure [typeGuard] that [create] builds for [typeName]. *)
Definition typeGuard (typeName : string) (value : Union) : bool :=
  bool_decide (type value = uncapitalize typeName)
  || bool_decide (type value = typeName).

(** What the proxy's [get] trap hands out: a type guard, or the member of
    the core object that [Reflect.get] finds under that name. *)
Inductive member : Type :=
| Guard (guard : Union → bool)
| Core (prop : string).

(** The [get] trap of the proxy returned by [create], for a string [prop];
    the cache is the state of the helpers object. *)
Definition create_get (typeGuardCache : gmap string (Union → bool)) (prop : string)
  : member * gmap string (Union → bool) :=
  if String.prefix "is" prop then
    match typeGuardCache !! prop with
    | Some cached => (Guard cached, typeGuardCache)
    | None =>
        let typeName := slice 2 prop in
        let typeGuard := typeGuard typeName in
        (Guard typeGuard, <[prop := typeGuard]> typeGuardCache)
    end
  else (Core prop, typeGuardCache).

(** The caches a helpers object can hold: empty when [create] returns, then
    changed by property reads only. *)
Inductive cache_reachable : gmap string (Union → bool) → Prop :=
| reachable_create : cache_reachable ∅
| reachable_get cache prop :
    cache_reachable cache → cache_reachable (create_get cache prop).2.

(** Calling [helpers[prop](value)] in the state [cache]; [None] when [prop]
    does not name a type guard. *)
Definition call_guard (cache : gmap string (Union → bool)) (prop : string)
    (value : Union) : option bool :=
  match (create_get cache prop).1 with
  | Guard guard => Some (guard value)
  | Core _ => None
  end.

(** ** The specification's vocabulary *)

(** [selects P values kept]: [kept] is the order-preserving subsequence of
    [values] made of the values that satisfy [P], each as often as it
    occurs. *)
Inductive selects (P : Union → Prop) : list Union → list Union → Prop :=
| selects_nil : selects P [] []
| selects_keep value values kept :
    P value → selects P values kept → selects P (value :: values) (value :: kept)
| selects_drop value values kept :
    ¬ P value → selects P values kept → selects P (value :: values) kept.

(** Membership of a discriminator in the selector of [filter]. *)
Definition in_selector (types : selector) (discriminator : string) : Prop :=
  match types with
  | One k => discriminator = k
  | Many ks => discriminator ∈ ks
  end.

(** What [filterBy] keeps: the values whose discriminator is a key of the
    predicate map and whose predicate answers true. *)
Definition accepted (predicates : gmap string (Union → bool)) (value : Union) : Prop :=
  ∃ predicate, predicates !! type value = Some predicate ∧ predicate value = true.

(** The order-preserving subsequence of the values of one discriminator. *)
Definition group_of (key : string) (values : list Union) : list Union :=
  filter (λ value, type value = key) values.

(** The discriminators of the values, each once, in the order in which they
    are first seen. *)
Fixpoint first_seen (values : list Union) : list string :=
  match values with
  | [] => []
  | value :: rest => type value :: filter (λ key, key ≠ type value) (first_seen rest)
  end.

(** A handler map as [MapHandlers] types it: the handler under a key returns
    a value of that discriminator when given one. *)
Definition same_variant (handlers : gmap string (Union → Union)) : Prop :=
  ∀ key handler value,
    handlers !! key = Some handler → type value = key → type (handler value) = key.

(** The property read [handlers[key]] does not end in [Object.prototype]. *)
Definition not_inherited {A : Type} (o : gmap string A) (key : string) : Prop :=
  is_Some (o !! key) ∨ key ∉ Object_prototype.

(** The loop never gives [result] an own property under a name of
    [Object.prototype]. *)
Definition no_inherited_key (result : gmap string (list Union)) : Prop :=
  ∀ key, key ∈ Object_prototype → result !! key = None.

(** A handler of [map] in the style of the examples: ten points more of
    progress, same variant. *)
Definition increment_progress (s : Union) : Union :=
  createConstructorFunction (type s)
    (match fields s !! "progress" with
     | Some (VNumber n) => <["progress" := VNumber (n + 10)]> (fields s)
     | _ => fields s
     end).

(** ** The operations as their callers use them *)

(** [values.map(callback)] for a callback that may not return, as in
    [timeline.map((entry) => status.transform(entry, ...))]. *)
Fixpoint Array_map {R : Type} (callback : Union → completion R) (values : list Union)
  : completion (list R) :=
  match values with
  | [] => Return []
  | value :: rest =>
      bind (callback value) (λ r,
      bind (Array_map callback rest) (λ rs,
      Return (r :: rs)))
  end.

(** The loop [for (let i = 0; i < n; i++) state = helpers.map(state, handlers)]
    of the state machine example. *)
Fixpoint map_loop (n : nat) (state : Union) (handlers : gmap string (Union → Union))
  : completion Union :=
  match n with
  | 0 => Return state
  | S n => bind (createMapFunction state handlers) (λ state, map_loop n state handlers)
  end.

(** The names that [createHelpersCore] binds in the core object. *)
Definition createHelpersCore : list string :=
  [ "map"; "transform"; "when"; "match"; "filter"; "filterBy"; "fold";
    "partition"; "getType"; "constructor" ].

(** The set [allowedTypes] that [filter] builds from its selector. *)
Definition selector_set (types : selector) : gset string :=
  list_to_set (match types with Many ks => ks | One k => [k] end).

(** Two handler maps of [map] in one: under a key both have an entry for,
    the second handler after the first. *)
Definition compose_handlers (first second : gmap string (Union → Union))
  : gmap string (Union → Union) :=
  merge (λ h1 h2,
           match h1, h2 with
           | Some h1, Some h2 => Some (λ value, h2 (h1 value))
           | Some h1, None => Some h1
           | None, h2 => h2
           end) first second.

(** * Properties *)

(** ** Property reads *)

Lemma get_own {A : Type} (o : gmap string A) key a :
  o !! key = Some a → get o key = Own a.
Proof. intros Hkey. unfold get. by rewrite Hkey. Qed.

Lemma get_undefined {A : Type} (o : gmap string A) key :
  o !! key = None → key ∉ Object_prototype → get o key = Undefined.
Proof.
  intros Hkey Hproto. unfold get. rewrite Hkey.
  by rewrite bool_decide_eq_false_2.
Qed.

Lemma get_inherited {A : Type} (o : gmap string A) key :
  o !! key = None → key ∈ Object_prototype → get o key = Inherited key.
Proof.
  intros Hkey Hproto. unfold get. rewrite Hkey.
  by rewrite bool_decide_eq_true_2.
Qed.


Lemma get_not_inherited {A : Type} (o : gmap string A) key :
  not_inherited o key →
  get o key = match o !! key with Some a => Own a | None => Undefined end.
Proof.
  intros [[a Ha]|Hproto]; unfold get.
  - by rewrite Ha.
  - destruct (o !! key); [done|]. by rewrite bool_decide_eq_false_2.
Qed.

(** ** Exhaustive dispatch *)

(** C1: when the handler map has an entry for the discriminator of the
    value, [when] returns the result of applying that entry to the value. *)
Theorem when_applies_entry {R : Type} (v : Union) (H : gmap string (Union → R))
    (handler : Union → R) :
  H !! createGetTypeFunction v = Some handler →
  createWhenFunction v H = Return (handler v).
Proof.
  unfold createGetTypeFunction, createWhenFunction. intros Hentry.
  by rewrite (get_own _ _ _ Hentry).
Qed.

Lemma when_applies_entry_witness :
  let v := createConstructorFunction "loading" {[ "progress" := VNumber 50 ]} in
  let H : gmap string (Union → option val) :=
    {[ "idle" := λ _, None; "loading" := λ s, fields s !! "progress" ]} in
  createWhenFunction v H = Return (Some (VNumber 50)).
Proof.
  intros v H.
  exact (when_applies_entry v H (λ s, fields s !! "progress") eq_refl).
Defined.




(** Away from the names of [Object.prototype], the partial operations
    return. *)
Lemma fold_returns {R : Type} (v : Union) (H : gmap string (Union → R)) D :
  not_inherited H (type v) →
  createFoldFunction v H D
  = Return (match H !! type v with Some handler => handler v | None => D v end).
Proof.
  intros Hne. unfold createFoldFunction. rewrite (get_not_inherited _ _ Hne).
  by destruct (H !! type v).
Qed.

Lemma map_returns (v : Union) (H : gmap string (Union → Union)) :
  not_inherited H (type v) →
  createMapFunction v H
  = Return (match H !! type v with Some handler => handler v | None => v end).
Proof.
  intros Hne. unfold createMapFunction. rewrite (get_not_inherited _ _ Hne).
  by destruct (H !! type v).
Qed.

Lemma transform_is_map (v : Union) (H : gmap string (Union → Union)) :
  createTransformFunction v H = createMapFunction v H.
Proof. reflexivity. Qed.

(** C2: at a discriminator that is the name of a member of
    [Object.prototype], [when] and [match] on a handler map without an entry
    for it do not raise their error but call the inherited member and return
    its string, [fold] calls an inherited member that raises a [TypeError],
    and [partition] raises a [TypeError]. *)
Theorem dispatch_errors_at_inherited_names :
  let v := createConstructorFunction "toString" ∅ in
  let w := createConstructorFunction "valueOf" ∅ in
  let H : gmap string (Union → nat) := ∅ in
  H !! type v = None
  ∧ createWhenFunction v H = CallBuiltin "toString" v
  ∧ createMatchFunction v H = CallBuiltin "toString" v
  ∧ Object_prototype_call "toString" v = inl (JString "[object Undefined]")
  ∧ createFoldFunction w H (λ _, 0) = CallBuiltin "valueOf" w
  ∧ Object_prototype_call "valueOf" w = inr TypeError
  ∧ createPartitionFunction [createConstructorFunction "constructor" ∅]
    = Throw TypeError.
Proof. repeat split. Qed.

(** ** Type guards *)

(** Facts about one character are settled on its eight bits. *)
Ltac by_bits c := destruct c as [[] [] [] [] [] [] [] []]; vm_compute; auto.

Lemma toLowerCase_toUpperCase c :
  toLowerCase (toUpperCase c) = c ∨ toUpperCase c = c.
Proof. by_bits c. Qed.

Lemma toUpperCase_idemp c : toUpperCase (toUpperCase c) = toUpperCase c.
Proof. by_bits c. Qed.

Lemma toUpperCase_toLowerCase_toUpperCase c :
  toUpperCase (toLowerCase (toUpperCase c)) = toUpperCase c.
Proof. by_bits c. Qed.

Lemma uncapitalize_Capitalize t :
  uncapitalize (Capitalize t) = t ∨ Capitalize t = t.
Proof.
  destruct t as [|c rest]; [by left|].
  unfold uncapitalize, Capitalize. simpl.
  destruct (toLowerCase_toUpperCase c) as [-> | ->]; auto.
Qed.

Lemma Capitalize_idemp t : Capitalize (Capitalize t) = Capitalize t.
Proof.
  destruct t as [|c rest]; [done|].
  unfold Capitalize. simpl. by rewrite toUpperCase_idemp.
Qed.

Lemma Capitalize_uncapitalize_Capitalize t :
  Capitalize (uncapitalize (Capitalize t)) = Capitalize t.
Proof.
  destruct t as [|c rest]; [done|].
  unfold uncapitalize, Capitalize. simpl.
  by rewrite toUpperCase_toLowerCase_toUpperCase.
Qed.

(** Every cached guard is the guard that a first read of its name builds. *)
Lemma cache_reachable_lookup cache prop guard :
  cache_reachable cache → cache !! prop = Some guard →
  guard = typeGuard (slice 2 prop).
Proof.
  intros Hreach. revert prop guard.
  induction Hreach as [|cache prop' _ IH]; intros prop guard; [done|].
  unfold create_get. destruct (String.prefix "is" prop'); [|apply IH].
  destruct (cache !! prop') eqn:Hcached; [apply IH|]. simpl.
  destruct (decide (prop' = prop)) as [->|Hne].
  - rewrite lookup_insert_eq. congruence.
  - rewrite lookup_insert_ne by done. apply IH.
Qed.

(** Reading [is{Name}] gives the guard of [Name], cached or not. *)
Lemma call_guard_is cache Name value :
  cache_reachable cache →
  call_guard cache ("is" +:+ Name) value = Some (typeGuard Name value).
Proof.
  intros Hreach. unfold call_guard, create_get.
  change (String.prefix "is" ("is" +:+ Name)) with (String.prefix "" Name).
  replace (String.prefix "" Name) with true by by destruct Name.
  destruct (cache !! ("is" +:+ Name)) as [cached|] eqn:Hcached; [|done].
  simpl. by rewrite (cache_reachable_lookup _ _ _ Hreach Hcached).
Qed.

Lemma typeGuard_true_iff Name value :
  typeGuard Name value = true ↔ type value = Name ∨ type value = uncapitalize Name.
Proof.
  unfold typeGuard. rewrite orb_true_iff, !bool_decide_eq_true. tauto.
Qed.

(** C3, as the code has it: on the value that [constructor(t)(p)] builds,
    the guard of [t]'s derived name answers true and the guard of every
    other derived name answers false; and the guard [is{Name}] answers true
    exactly on the values whose discriminator is [Name] or [Name] with its
    first letter in lower case. Discriminators are ASCII text. *)
Theorem type_guards_decide_by_derived_name cache t p :
  cache_reachable cache →
  ascii_text t = true →
  call_guard cache (guard_name t) (createConstructorFunction t p) = Some true
  ∧ (∀ t', ascii_text t' = true → guard_name t' ≠ guard_name t →
       call_guard cache (guard_name t') (createConstructorFunction t p) = Some false)
  ∧ (∀ Name v, ∃ answer,
       call_guard cache ("is" +:+ Name) v = Some answer
       ∧ (answer = true ↔ type v = Name ∨ type v = uncapitalize Name)).
Proof.
  intros Hreach _. unfold guard_name. split; [|split].
  - rewrite call_guard_is by done. f_equal.
    apply typeGuard_true_iff. simpl.
    destruct (uncapitalize_Capitalize t); auto.
  - intros t' _ Hname. rewrite call_guard_is by done. f_equal.
    apply not_true_is_false. rewrite typeGuard_true_iff. simpl.
    intros [-> | ->]; apply Hname.
    + by rewrite Capitalize_idemp.
    + by rewrite Capitalize_uncapitalize_Capitalize.
  - intros Name v. exists (typeGuard Name v). split.
    + by apply call_guard_is.
    + apply typeGuard_true_iff.
Qed.

Lemma type_guards_decide_by_derived_name_witness :
  call_guard (create_get ∅ "isBType").2 (guard_name "aType")
    (createConstructorFunction "aType" {[ "data" := VString "hello" ]}) = Some true
  ∧ call_guard (create_get ∅ "isBType").2 (guard_name "bType")
      (createConstructorFunction "aType" {[ "data" := VString "hello" ]}) = Some false.
Proof.
  destruct (type_guards_decide_by_derived_name (create_get ∅ "isBType").2 "aType"
              {[ "data" := VString "hello" ]}
              (reachable_get ∅ "isBType" reachable_create) eq_refl)
    as (Hsame & Hother & _).
  split; [exact Hsame|].
  apply (Hother "bType"); [reflexivity|discriminate].
Defined.

(** The claim C3 as written fails for two discriminators that differ in the
    case of their first letter only: they share one derived name, so the
    guard of [Foo] accepts a value built for [foo]. *)
Lemma guard_of_other_variant_accepts :
  "Foo" ≠ "foo"
  ∧ call_guard ∅ (guard_name "Foo") (createConstructorFunction "foo" ∅) = Some true.
Proof. split; [discriminate|reflexivity]. Qed.

(** ** Transforms *)

(** C4, as the code has it: when every handler returns a value of the
    discriminator it is keyed by, and the read of the handler does not end
    in [Object.prototype], [map] returns a value with the discriminator of
    its input. *)
Theorem map_preserves_type (v : Union) (H : gmap string (Union → Union)) :
  same_variant H →
  not_inherited H (type v) →
  ∃ result,
    createMapFunction v H = Return result
    ∧ createGetTypeFunction result = createGetTypeFunction v.
Proof.
  intros Hsame Hne. rewrite (map_returns _ _ Hne).
  unfold createGetTypeFunction.
  destruct (H !! type v) as [handler|] eqn:Hentry; eexists; split; try done.
  by apply (Hsame (type v)).
Qed.

Lemma map_preserves_type_witness :
  ∃ result,
    createMapFunction (createConstructorFunction "loading" {[ "progress" := VNumber 50 ]})
      {[ "loading" := increment_progress ]} = Return result
    ∧ createGetTypeFunction result = "loading".
Proof.
  apply (map_preserves_type
           (createConstructorFunction "loading" {[ "progress" := VNumber 50 ]})
           {[ "loading" := increment_progress ]}).
  - intros key handler value Hentry Htype.
    destruct (decide (key = "loading")) as [->|Hne].
    + rewrite lookup_singleton_eq in Hentry. injection Hentry as <-. exact Htype.
    + by rewrite lookup_singleton_ne in Hentry.
  - left. by eexists.
Defined.

(** The claim C4 as written fails for a handler that returns another
    variant, which [map] hands back as it does for [transform]. *)
Lemma map_hands_back_other_variant :
  let v := createConstructorFunction "error" {[ "message" := VString "x" ]} in
  let retry := createConstructorFunction "loading" {[ "progress" := VNumber 0 ]} in
  createMapFunction v {[ "error" := λ _, retry ]} = Return retry
  ∧ createGetTypeFunction retry ≠ createGetTypeFunction v.
Proof. split; [reflexivity|discriminate]. Qed.

(** ** Partial dispatch *)

(** With an entry for the discriminator [fold] returns what the entry
    returns, and without one, for a discriminator that is no name of
    [Object.prototype], what the default handler returns. *)
Lemma fold_entry {R : Type} (v : Union) (H : gmap string (Union → R)) D handler :
  H !! type v = Some handler → createFoldFunction v H D = Return (handler v).
Proof.
  intros Hentry. rewrite fold_returns by (left; by eexists). by rewrite Hentry.
Qed.

Lemma fold_default {R : Type} (v : Union) (H : gmap string (Union → R)) D :
  H !! type v = None → type v ∉ Object_prototype →
  createFoldFunction v H D = Return (D v).
Proof.
  intros Hentry Hproto. rewrite fold_returns by by right. by rewrite Hentry.
Qed.

(** C5: on a value whose discriminator is [toString] and a handler map
    without an entry for it, [fold] does not return the default handler's
    result: the read of the handler finds [Object.prototype.toString], and
    [fold] returns what that returns, a string. *)
Theorem fold_calls_inherited_member :
  let v := createConstructorFunction "toString" ∅ in
  let H : gmap string (Union → nat) := ∅ in
  let D : Union → nat := λ _, 0 in
  H !! type v = None
  ∧ createFoldFunction v H D = CallBuiltin "toString" v
  ∧ Object_prototype_call "toString" v = inl (JString "[object Undefined]")
  ∧ createFoldFunction v H D ≠ Return (D v).
Proof. repeat split. discriminate. Qed.

(** ** Filtering *)

Lemma selects_functional P values kept kept' :
  selects P values kept → selects P values kept' → kept = kept'.
Proof.
  intros Hsel. revert kept'.
  induction Hsel as [|value values kept HP _ IH|value values kept HP _ IH];
    intros kept' Hsel'; inversion Hsel'; subst; try done.
  - f_equal. by apply IH.
  - by apply IH.
Qed.

Lemma selects_filter P (f : Union → bool) values :
  (∀ value, f value = true ↔ P value) →
  selects P values (List.filter f values).
Proof.
  intros Hf. induction values as [|value values IH]; simpl; [constructor|].
  destruct (f value) eqn:Hvalue.
  - apply selects_keep; [by apply Hf|done].
  - apply selects_drop; [|done]. rewrite <-Hf. congruence.
Qed.

Lemma selects_none P values kept :
  selects P values kept → (∀ value, value ∈ values → ¬ P value) → kept = [].
Proof.
  induction 1 as [|value values kept HP _ IH|value values kept HP _ IH];
    intros Hnone; [done| |].
  - destruct (Hnone value); [left|done].
  - apply IH. intros value' Hin. apply Hnone. by right.
Qed.

Lemma selects_elem_of P values kept value :
  selects P values kept → value ∈ kept → value ∈ values ∧ P value.
Proof.
  induction 1 as [|value' values kept HP _ IH|value' values kept HP _ IH];
    intros Hin.
  - by apply not_elem_of_nil in Hin.
  - apply elem_of_cons in Hin as [->|Hin]; [split; [left|done]|].
    destruct (IH Hin). split; [by right|done].
  - destruct (IH Hin). split; [by right|done].
Qed.

Lemma in_selector_allowed types discriminator :
  discriminator ∈ (list_to_set (match types with Many ks => ks | One k => [k] end)
                   : gset string)
  ↔ in_selector types discriminator.
Proof.
  rewrite elem_of_list_to_set. destruct types as [k|ks]; simpl; [|done].
  rewrite elem_of_cons. split; [intros [?|Hnil]; [done|]|by left].
  by apply not_elem_of_nil in Hnil.
Qed.

(** C6: [filter] returns the order-preserving subsequence of the values
    whose discriminator is in the selector, and nothing else is that
    subsequence; on the empty sequence, and with a selector that matches no
    element, it returns the empty sequence. *)
Theorem filter_selects_by_type (values : list Union) (types : selector) :
  selects (λ v, in_selector types (type v)) values (createFilterFunction values types)
  ∧ (∀ kept, selects (λ v, in_selector types (type v)) values kept →
             kept = createFilterFunction values types)
  ∧ createFilterFunction [] types = []
  ∧ ((∀ v, v ∈ values → ¬ in_selector types (type v)) →
     createFilterFunction values types = []).
Proof.
  assert (Hsel : selects (λ v, in_selector types (type v)) values
                   (createFilterFunction values types)).
  { apply selects_filter. intros value.
    rewrite bool_decide_eq_true. apply in_selector_allowed. }
  split; [done|]. split; [|split; [done|]].
  - intros kept Hkept. by eapply selects_functional.
  - by apply selects_none.
Qed.

Lemma elem_of_Object_keys {A : Type} (o : gmap string A) key :
  key ∈ Object_keys o ↔ is_Some (o !! key).
Proof.
  unfold Object_keys. rewrite list_elem_of_fmap. split.
  - intros ([key' a] & -> & Hin). apply elem_of_map_to_list in Hin. by eexists.
  - intros [a Ha]. exists (key, a). split; [done|]. by apply elem_of_map_to_list.
Qed.

Lemma Array_filter_returns callback (f : Union → bool) values :
  (∀ value, callback value = Return (f value)) →
  Array_filter callback values = Return (List.filter f values).
Proof.
  intros Hcallback. induction values as [|value values IH]; simpl; [done|].
  rewrite Hcallback, IH. simpl. by destruct (f value).
Qed.

(** The callback of [filterBy] never reaches [Object.prototype]: it reads
    [predicates] only under one of its own keys. *)
Lemma filterBy_returns values predicates :
  createFilterByFunction values predicates
  = Return (List.filter
              (λ value, match predicates !! type value with
                        | Some predicate => predicate value
                        | None => false
                        end) values).
Proof.
  apply Array_filter_returns. intros value.
  case_bool_decide as Hkey.
  - apply elem_of_list_to_set, elem_of_Object_keys in Hkey as [predicate Hp].
    by rewrite (get_own _ _ _ Hp), Hp.
  - destruct (predicates !! type value) as [predicate|] eqn:Hp; [|done].
    destruct Hkey. apply elem_of_list_to_set, elem_of_Object_keys. by eexists.
Qed.

(** C7: [filterBy] returns the order-preserving subsequence of the values
    whose discriminator is a key of the predicate map and whose predicate
    answers true; a value whose discriminator is no key of the map is not
    kept, and with the empty map nothing is. *)
Theorem filterBy_selects_accepted (values : list Union)
    (P : gmap string (Union → bool)) :
  (∃ kept,
      createFilterByFunction values P = Return kept
      ∧ selects (accepted P) values kept
      ∧ (∀ kept', selects (accepted P) values kept' → kept' = kept)
      ∧ (∀ v, P !! type v = None → v ∉ kept))
  ∧ createFilterByFunction values ∅ = Return [].
Proof.
  assert (Hsel : ∀ Q : gmap string (Union → bool),
             selects (accepted Q) values
               (List.filter (λ value, match Q !! type value with
                                      | Some predicate => predicate value
                                      | None => false
                                      end) values)).
  { intros Q. apply selects_filter. intros value. unfold accepted.
    destruct (Q !! type value) as [predicate|]; split.
    - intros Htrue. by exists predicate.
    - by intros (predicate' & [= <-] & Htrue).
    - done.
    - by intros (predicate' & Hnone & _). }
  split.
  - eexists. split; [apply filterBy_returns|]. split; [apply Hsel|]. split.
    + intros kept' Hkept'. by eapply selects_functional.
    + intros v Hnone Hin.
      destruct (selects_elem_of _ _ _ _ (Hsel P) Hin) as [_ (predicate & Hp & _)].
      congruence.
  - rewrite filterBy_returns. f_equal.
    eapply selects_none; [apply (Hsel ∅)|].
    intros value _ (predicate & Hp & _). by rewrite lookup_empty in Hp.
Qed.

(** ** Constructors *)

Lemma constructor_fields t p :
  fields (createConstructorFunction t p) = <["type" := VString t]> p.
Proof.
  unfold createConstructorFunction, object_literal. simpl.
  by rewrite (right_id_L ∅ (∪)).
Qed.

(** C9: the value that [constructor(t)] builds from a payload (a record
    without the discriminator field) has discriminator [t], and its other
    fields are the fields of the payload, each with its value. *)
Theorem constructor_keeps_payload (t : string) (p : gmap string val) :
  p !! "type" = None →
  createGetTypeFunction (createConstructorFunction t p) = t
  ∧ fields (createConstructorFunction t p) !! "type" = Some (VString t)
  ∧ delete "type" (fields (createConstructorFunction t p)) = p
  ∧ (∀ k, k ≠ "type" → fields (createConstructorFunction t p) !! k = p !! k).
Proof.
  intros Hpayload. rewrite constructor_fields. repeat split.
  - apply lookup_insert_eq.
  - rewrite delete_insert_eq. by apply delete_id.
  - intros k Hk. by rewrite lookup_insert_ne.
Qed.

Lemma constructor_keeps_payload_witness :
  createGetTypeFunction (createConstructorFunction "aType" {[ "data" := VString "test" ]})
  = "aType"
  ∧ delete "type" (fields (createConstructorFunction "aType" {[ "data" := VString "test" ]}))
    = {[ "data" := VString "test" ]}.
Proof.
  assert (Hpayload : ({[ "data" := VString "test" ]} : gmap string val) !! "type" = None)
    by (vm_compute; reflexivity).
  destruct (constructor_keeps_payload "aType" {[ "data" := VString "test" ]} Hpayload)
    as (Htype & _ & Hrest & _).
  split; [exact Htype|exact Hrest].
Defined.

(** C10: whatever the payload holds, a [type] field of its own included, the
    value that [constructor(t)] builds has discriminator [t]: the literal
    [{ ...data, type }] writes [type] after the fields of [data]. *)
Theorem constructor_type_wins (t : string) (p : gmap string val) :
  fields (createConstructorFunction t p) !! "type" = Some (VString t)
  ∧ createGetTypeFunction (createConstructorFunction t p) = t.
Proof. split; [|done]. rewrite constructor_fields. apply lookup_insert_eq. Qed.

Example constructor_overrides_payload_type :
  let v := createConstructorFunction "aType"
             {[ "type" := VString "bType"; "data" := VNumber 1 ]} in
  createGetTypeFunction v = "aType"
  ∧ fields v = {[ "type" := VString "aType"; "data" := VNumber 1 ]}.
Proof.
  split; [done|]. cbv zeta. rewrite constructor_fields. by rewrite insert_insert_eq.
Qed.

(** The order of the literal is what decides: written [{ type, ...data }],
    a [type] field of the payload would win. *)
Lemma literal_type_first t p other :
  p !! "type" = Some other →
  object_literal [KeyValue "type" (VString t); Spread p] !! "type" = Some other.
Proof.
  intros Hother. unfold object_literal. simpl.
  by apply lookup_union_Some_l.
Qed.

(** ** Grouping *)

Lemma partition_step_own result value group :
  result !! type value = Some group →
  partition_step result value = Return (<[type value := (group ++ [value])%list]> result).
Proof.
  intros Hgroup. unfold partition_step.
  rewrite (get_own _ _ _ Hgroup). simpl. by rewrite (get_own _ _ _ Hgroup).
Qed.

Lemma partition_step_new result value :
  result !! type value = None → type value ∉ Object_prototype →
  partition_step result value = Return (<[type value := [value]]> result).
Proof.
  intros Hnone Hproto. unfold partition_step.
  rewrite (get_undefined _ _ Hnone Hproto). simpl.
  rewrite (get_own _ _ [] (lookup_insert_eq _ _ _)).
  by rewrite insert_insert_eq.
Qed.

Lemma partition_step_inherited result value :
  result !! type value = None → type value ∈ Object_prototype →
  partition_step result value = Throw TypeError.
Proof.
  intros Hnone Hproto. unfold partition_step.
  rewrite (get_inherited _ _ Hnone Hproto). simpl.
  by rewrite (get_inherited _ _ Hnone Hproto).
Qed.

Lemma partition_step_returns result value :
  no_inherited_key result → type value ∉ Object_prototype →
  ∃ result',
    partition_step result value = Return result'
    ∧ no_inherited_key result'
    ∧ result' = <[type value := (default [] (result !! type value) ++ [value])%list]> result.
Proof.
  intros Hinv Hproto.
  destruct (result !! type value) as [group|] eqn:Hgroup.
  - eexists. split; [by apply partition_step_own|]. split; [|done].
    intros key Hkey. rewrite lookup_insert_ne by congruence. by apply Hinv.
  - eexists. split; [by apply partition_step_new|]. split; [|done].
    intros key Hkey. rewrite lookup_insert_ne by congruence. by apply Hinv.
Qed.

Lemma for_of_partition_throws values result value :
  no_inherited_key result →
  value ∈ values → type value ∈ Object_prototype →
  for_of partition_step values result = Throw TypeError.
Proof.
  intros Hinv Hin Hproto. revert result Hinv.
  induction values as [|value' values IH]; intros result Hinv.
  - by apply not_elem_of_nil in Hin.
  - simpl. destruct (decide (type value' ∈ Object_prototype)) as [Hproto'|Hproto'].
    + by rewrite partition_step_inherited by auto.
    + destruct (partition_step_returns result value' Hinv Hproto')
        as (result' & -> & Hinv' & _). simpl.
      apply elem_of_cons in Hin as [->|Hin]; [done|]. by apply IH.
Qed.

(** C8: [partition] returns no mapping for a sequence that holds a value
    whose discriminator is the name of a member of [Object.prototype]: the
    read [result[key]] finds the inherited member, no array is created, and
    the call of [push] on the member raises a [TypeError]. *)
Theorem partition_throws_on_inherited_name (values : list Union) (v : Union) :
  v ∈ values →
  type v ∈ Object_prototype →
  createPartitionFunction values = Throw TypeError.
Proof.
  intros Hin Hproto. by apply (for_of_partition_throws values ∅ v).
Qed.

Lemma partition_throws_on_inherited_name_witness :
  createPartitionFunction
    [ createConstructorFunction "a" ∅;
      createConstructorFunction "toString" ∅;
      createConstructorFunction "a" ∅ ]
  = Throw TypeError.
Proof.
  apply (partition_throws_on_inherited_name _ (createConstructorFunction "toString" ∅)).
  - right. left.
  - do 8 right. left.
Defined.

(** On the other sequences [partition] returns the groups that the
    specification describes. *)
Lemma for_of_partition_returns values result :
  no_inherited_key result →
  Forall (λ value, type value ∉ Object_prototype) values →
  ∃ result',
    for_of partition_step values result = Return result'
    ∧ ∀ key, result' !! key =
        match group_of key values with
        | [] => result !! key
        | group => Some (default [] (result !! key) ++ group)%list
        end.
Proof.
  intros Hinv Hvalues. revert result Hinv.
  induction Hvalues as [|value values Hproto _ IH]; intros result Hinv.
  - by exists result.
  - simpl. destruct (partition_step_returns result value Hinv Hproto)
      as (result1 & -> & Hinv1 & ->).
    destruct (IH _ Hinv1) as (result' & Hfor & Hgroups). simpl.
    exists result'. split; [done|]. intros key. rewrite Hgroups.
    unfold group_of. destruct (decide (type value = key)) as [<-|Hne].
    + rewrite filter_cons_True by done. rewrite lookup_insert_eq. simpl.
      destruct (filter _ values); [done|]. by rewrite <-app_assoc.
    + rewrite filter_cons_False by done. by rewrite lookup_insert_ne.
Qed.

Lemma group_of_nil_iff key values :
  group_of key values = [] ↔ key ∉ first_seen values.
Proof.
  unfold group_of. induction values as [|value values IH]; simpl.
  - split; [intros _; apply not_elem_of_nil|done].
  - destruct (decide (type value = key)) as [<-|Hne].
    + rewrite filter_cons_True by done. split; [done|]. intros []. left.
    + rewrite filter_cons_False by done. rewrite IH.
      rewrite not_elem_of_cons, list_elem_of_filter. split.
      * intros Hseen. split; [congruence|]. by intros [_ Hin].
      * intros [_ Hseen] Hin. apply Hseen. split; [congruence|done].
Qed.

Lemma first_seen_NoDup values : NoDup (first_seen values).
Proof.
  induction values as [|value values IH]; simpl; [constructor|].
  constructor; [|by apply NoDup_filter].
  rewrite list_elem_of_filter. by intros [].
Qed.

Lemma elem_of_first_seen key values :
  key ∈ first_seen values ↔ ∃ value, value ∈ values ∧ type value = key.
Proof.
  induction values as [|value values IH]; simpl.
  - split; [by intros ?%not_elem_of_nil|by intros (? & ?%not_elem_of_nil & _)].
  - rewrite elem_of_cons, list_elem_of_filter, IH. split.
    + intros [->|[_ (value' & Hin & <-)]]; eexists; (split; [|done]);
        [left|by right].
    + intros (value' & Hin & <-). apply elem_of_cons in Hin as [->|Hin]; [by left|].
      destruct (decide (type value' = type value)); [by left|right; eauto].
Qed.

Lemma concat_groups_move (g : string → list Union) key keys :
  NoDup keys →
  mjoin (g <$> keys)
  ≡ₚ (if decide (key ∈ keys) then g key else [])
      ++ mjoin (g <$> filter (λ key', key' ≠ key) keys).
Proof.
  induction 1 as [|key' keys Hnotin _ IH].
  { by rewrite decide_False by apply not_elem_of_nil. }
  simpl. destruct (decide (key' = key)) as [->|Hne].
  - rewrite filter_cons_False by (by intros []).
    rewrite decide_True by left. rewrite IH, decide_False by done. done.
  - rewrite filter_cons_True by done. simpl. rewrite IH.
    rewrite Permutation_app_swap_app. apply Permutation_app_tail.
    destruct (decide (key ∈ keys)) as [Hin|Hnin].
    + by rewrite decide_True by by right.
    + rewrite decide_False; [done|]. by intros [?|?]%elem_of_cons.
Qed.

Lemma group_of_cons_ne key value values :
  key ≠ type value → group_of key (value :: values) = group_of key values.
Proof. intros Hne. unfold group_of. by rewrite filter_cons_False by congruence. Qed.

Lemma concat_groups_first_seen values :
  mjoin ((λ key, group_of key values) <$> first_seen values) ≡ₚ values.
Proof.
  induction values as [|value values IH]; [done|]. simpl.
  unfold group_of at 1. rewrite filter_cons_True by done. simpl.
  apply Permutation_skip.
  set (keys := filter _ (first_seen values)).
  assert (Hkeys : (λ key, group_of key (value :: values)) <$> keys
                  = (λ key, group_of key values) <$> keys).
  { apply Forall_fmap_ext, Forall_forall. intros key [Hne _]%list_elem_of_filter.
    by apply group_of_cons_ne. }
  unfold fmap in Hkeys |- *. rewrite Hkeys. etrans; [|apply IH].
  rewrite (concat_groups_move (λ key, group_of key values) (type value)
             (first_seen values)) by apply first_seen_NoDup.
  apply Permutation_app_tail. fold (group_of (type value) values).
  case_decide as Hseen; [done|]. by apply group_of_nil_iff in Hseen as ->.
Qed.

(** What [partition] returns on a sequence without such a discriminator:
    a mapping whose keys are the discriminators of the values, each mapped
    to the values of that discriminator in their order; the groups, taken
    in the order in which their discriminators are first seen, are a
    permutation of the sequence, and their lengths add up to its length. *)
Lemma partition_groups (values : list Union) :
  Forall (λ value, type value ∉ Object_prototype) values →
  ∃ groups,
    createPartitionFunction values = Return groups
    ∧ (∀ key, key ∈ dom groups ↔ ∃ value, value ∈ values ∧ type value = key)
    ∧ (∀ key group, groups !! key = Some group →
         group ≠ [] ∧ group = group_of key values)
    ∧ mjoin ((λ key, groups !!! key) <$> first_seen values) ≡ₚ values
    ∧ sum_list (length <$> (map_to_list groups).*2) = length values.
Proof.
  intros Hvalues.
  destruct (for_of_partition_returns values ∅) as (groups & Hreturn & Hgroups);
    [done|done|].
  assert (Hlookup : ∀ key, groups !! key =
            if decide (key ∈ first_seen values) then Some (group_of key values)
            else None).
  { intros key. rewrite Hgroups, lookup_empty. simpl.
    case_decide as Hseen.
    - destruct (group_of key values) eqn:Hgroup; [|done].
      by apply group_of_nil_iff in Hgroup.
    - by apply group_of_nil_iff in Hseen as ->. }
  assert (Hjoin : (λ key, groups !!! key) <$> first_seen values
                  = (λ key, group_of key values) <$> first_seen values).
  { apply Forall_fmap_ext, Forall_forall. intros key Hseen.
    unfold lookup_total, map_lookup_total. rewrite Hlookup.
    by rewrite decide_True. }
  assert (Hlist : map_to_list groups
                  ≡ₚ (λ key, (key, group_of key values)) <$> first_seen values).
  { apply NoDup_Permutation.
    - apply NoDup_map_to_list.
    - apply NoDup_fmap_2_strong; [|apply first_seen_NoDup]. congruence.
    - intros [key group]. rewrite elem_of_map_to_list, Hlookup, list_elem_of_fmap.
      case_decide as Hseen; split.
      + intros [= <-]. by exists key.
      + by intros (key' & [= -> ->] & _).
      + done.
      + by intros (key' & [= -> ->] & Hin). }
  exists groups. split; [done|]. split; [|split; [|split]].
  - intros key. rewrite elem_of_dom, Hlookup, <-elem_of_first_seen.
    case_decide as Hseen; split.
    + done.
    + by eexists.
    + by intros [? ?].
    + done.
  - intros key group. rewrite Hlookup. case_decide as Hseen; [|done].
    intros [= <-]. split; [|done]. by intros Hnil%group_of_nil_iff.
  - rewrite Hjoin. apply concat_groups_first_seen.
  - rewrite Hlist, <-!list_fmap_compose.
    rewrite <-(Permutation_length (concat_groups_first_seen values)).
    by rewrite length_join, <-list_fmap_compose.
Qed.

(** ** The scenarios of the specification *)

Example scenario_when_loading :
  createWhenFunction (createConstructorFunction "loading" {[ "progress" := VNumber 50 ]})
    {[ "idle" := λ _, None;
       "loading" := λ s, fields s !! "progress";
       "success" := λ _, None;
       "error" := λ _, None ]}
  = Return (Some (VNumber 50)).
Proof. reflexivity. Qed.

Example scenario_fold_fallback :
  createFoldFunction (createConstructorFunction "error" {[ "message" := VString "x" ]})
    {[ "success" := λ s, default VUndefined (fields s !! "data") ]}
    (λ _, VString "fallback")
  = Return (VString "fallback").
Proof. reflexivity. Qed.

Example scenario_partition :
  let a := createConstructorFunction "a" ∅ in
  let b := createConstructorFunction "b" ∅ in
  createPartitionFunction [a; b; a] = Return {[ "a" := [a; a]; "b" := [b] ]}.
Proof. vm_compute. reflexivity. Qed.

Example scenario_when_missing_entry :
  createWhenFunction (createConstructorFunction "error" {[ "message" := VString "x" ]})
    ({[ "success" := λ _, 0 ]} : gmap string (Union → nat))
  = Throw (Error "No handler found for type: error").
Proof. reflexivity. Qed.

Example scenario_filter :
  let a := createConstructorFunction "aType" {[ "data" := VString "short" ]} in
  let b := createConstructorFunction "bType" {[ "data" := VNumber 5 ]} in
  let c := createConstructorFunction "cType" {[ "flag" := VBoolean true ]} in
  createFilterFunction [a; b; c; b] (One "bType") = [b; b]
  ∧ createFilterFunction [a; b; c; b] (Many ["aType"; "cType"]) = [a; c]
  ∧ createFilterFunction [a; b; c; b] (One "") = [].
Proof. repeat split. Qed.

(** * Further properties of the code *)

(** ** Dispatch *)


(** X2: [fold] ends as [when] does on the same value and handler map,
    except where [when] raises: there [fold] returns the result of the
    default handler. *)
Theorem fold_extends_when {R : Type} (v : Union) (H : gmap string (Union → R))
    (D : Union → R) :
  createFoldFunction v H D
  = match createWhenFunction v H with
    | Throw _ => Return (D v)
    | completed => completed
    end.
Proof.
  unfold createFoldFunction, createWhenFunction. by destruct (get H (type v)).
Qed.

(** [map] and [transform] are [fold] with the identity as default handler:
    they differ in their types only. *)
Lemma map_transform_are_fold (v : Union) (H : gmap string (Union → Union)) :
  createMapFunction v H = createFoldFunction v H (λ value, value)
  ∧ createTransformFunction v H = createFoldFunction v H (λ value, value).
Proof. done. Qed.

Lemma lookup_compose_handlers first second key :
  compose_handlers first second !! key
  = match first !! key, second !! key with
    | Some h1, Some h2 => Some (λ value, h2 (h1 value))
    | Some h1, None => Some h1
    | None, h2 => h2
    end.
Proof.
  unfold compose_handlers. rewrite lookup_merge.
  by destruct (first !! key), (second !! key).
Qed.

(** X3: two calls of [map] in a row, the first with handlers that keep the
    variant, are one call with the composed handler map. *)
Theorem map_map_fuses (v : Union) (H1 H2 : gmap string (Union → Union)) :
  same_variant H1 →
  type v ∉ Object_prototype →
  bind (createMapFunction v H1) (λ r, createMapFunction r H2)
  = createMapFunction v (compose_handlers H1 H2).
Proof.
  intros Hsame Hproto.
  rewrite (map_returns v H1), (map_returns v (compose_handlers H1 H2))
    by by right.
  rewrite lookup_compose_handlers. simpl.
  destruct (H1 !! type v) as [h1|] eqn:Hh1.
  - rewrite map_returns by (right; by rewrite (Hsame _ _ v Hh1)).
    rewrite (Hsame _ _ v Hh1) by done. by destruct (H2 !! type v).
  - rewrite map_returns by by right. by destruct (H2 !! type v).
Qed.

Lemma map_map_fuses_witness :
  let v := createConstructorFunction "loading" {[ "progress" := VNumber 50 ]} in
  let H : gmap string (Union → Union) := {[ "loading" := increment_progress ]} in
  bind (createMapFunction v H) (λ r, createMapFunction r H)
  = createMapFunction v (compose_handlers H H).
Proof.
  intros v H. apply (map_map_fuses v H H).
  - subst H. intros key handler value Hentry Htype.
    destruct (decide (key = "loading")) as [->|Hne].
    + rewrite lookup_singleton_eq in Hentry. injection Hentry as <-. exact Htype.
    + by rewrite lookup_singleton_ne in Hentry.
  - refine (bool_decide_unpack _ _). vm_compute. exact I.
Defined.

(** ** The operations over arrays *)

(** Closed facts about concrete names are decided by evaluation. *)
Ltac by_evaluation := refine (bool_decide_unpack _ _); vm_compute; exact I.

Lemma Array_map_returns {R : Type} (callback : Union → completion R)
    (f : Union → R) values :
  Forall (λ value, callback value = Return (f value)) values →
  Array_map callback values = Return (f <$> values).
Proof.
  induction 1 as [|value values Hvalue _ IH]; simpl; [done|].
  by rewrite Hvalue, IH.
Qed.

Lemma group_of_length_types key values values' :
  type <$> values' = type <$> values →
  length (group_of key values') = length (group_of key values).
Proof.
  revert values. unfold group_of.
  induction values' as [|value' values' IH]; intros [|value values] Htypes;
    try done.
  injection Htypes as Htype Htypes.
  destruct (decide (type value = key)) as [Hkey|Hkey].
  - rewrite !filter_cons_True by congruence. simpl. f_equal. by apply IH.
  - rewrite !filter_cons_False by congruence. by apply IH.
Qed.

Lemma createFilterFunction_cons value values types :
  createFilterFunction (value :: values) types
  = if bool_decide (type value ∈ selector_set types)
    then value :: createFilterFunction values types
    else createFilterFunction values types.
Proof. reflexivity. Qed.

Lemma elem_of_selector_set types discriminator :
  discriminator ∈ selector_set types ↔ in_selector types discriminator.
Proof. apply in_selector_allowed. Qed.

(** X4: the loop that replaces a state by [map] of it any number of times,
    with handlers that keep the variant, returns a state of the variant it
    started from. *)
Theorem map_loop_keeps_type (n : nat) (v : Union) (H : gmap string (Union → Union)) :
  same_variant H →
  type v ∉ Object_prototype →
  ∃ state, map_loop n v H = Return state ∧ type state = type v.
Proof.
  intros Hsame. revert v. induction n as [|n IH]; intros v Hproto; simpl.
  - by exists v.
  - rewrite map_returns by by right. simpl.
    destruct (H !! type v) as [handler|] eqn:Hentry.
    + destruct (IH (handler v)) as (state & Hloop & Htype).
      { by rewrite (Hsame _ _ v Hentry). }
      exists state. split; [done|]. by rewrite Htype, (Hsame _ _ v Hentry).
    + by apply IH.
Qed.

Lemma increment_progress_same_variant :
  same_variant {[ "loading" := increment_progress ]}.
Proof.
  intros key handler value Hentry Htype.
  destruct (decide (key = "loading")) as [->|Hne].
  - rewrite lookup_singleton_eq in Hentry. injection Hentry as <-. exact Htype.
  - by rewrite lookup_singleton_ne in Hentry.
Qed.

Lemma map_loop_keeps_type_witness :
  ∃ state,
    map_loop 5 (createConstructorFunction "loading" {[ "progress" := VNumber 0 ]})
      {[ "loading" := increment_progress ]} = Return state
    ∧ type state = "loading".
Proof.
  apply (map_loop_keeps_type 5
           (createConstructorFunction "loading" {[ "progress" := VNumber 0 ]})
           {[ "loading" := increment_progress ]}).
  - apply increment_progress_same_variant.
  - by_evaluation.
Defined.

(** X5: [transform] applied to every value of an array, with one handler
    that never returns its own variant, returns an array of the same length
    in which that variant no longer occurs: the values of the variant are
    replaced by the handler's results and the others are kept. *)
Theorem transform_array_removes_variant (values : list Union) (k : string)
    (h : Union → Union) :
  (∀ v, type (h v) ≠ k) →
  Forall (λ v, type v ∉ Object_prototype) values →
  ∃ out,
    Array_map (λ entry, createTransformFunction entry {[ k := h ]}) values = Return out
    ∧ out = (λ v, if decide (type v = k) then h v else v) <$> values
    ∧ createFilterFunction out (One k) = [].
Proof.
  intros Hh Hvalues. eexists. split; [|split; [done|]].
  - apply Array_map_returns. eapply Forall_impl; [exact Hvalues|].
    intros v Hproto. simpl. rewrite transform_is_map, map_returns by by right.
    case_decide as Hk.
    + by rewrite Hk, lookup_singleton_eq.
    + by rewrite lookup_singleton_ne.
  - clear Hvalues. induction values as [|v values IH]; [done|].
    rewrite fmap_cons, createFilterFunction_cons.
    rewrite bool_decide_eq_false_2; [exact IH|].
    rewrite elem_of_selector_set. simpl.
    case_decide; [apply Hh|done].
Qed.

Lemma transform_array_removes_variant_witness :
  let retry : Union → Union :=
    λ _, createConstructorFunction "loading" {[ "progress" := VNumber 0 ]} in
  let timeline :=
    [ createConstructorFunction "idle" ∅;
      createConstructorFunction "loading" {[ "progress" := VNumber 55 ]};
      createConstructorFunction "error" {[ "message" := VString "Network timeout" ]} ] in
  ∃ out,
    Array_map (λ entry, createTransformFunction entry {[ "error" := retry ]}) timeline
    = Return out
    ∧ out = (λ v, if decide (type v = "error") then retry v else v) <$> timeline
    ∧ createFilterFunction out (One "error") = [].
Proof.
  intros retry timeline.
  apply (transform_array_removes_variant timeline "error" retry).
  - intros v. discriminate.
  - repeat constructor; by_evaluation.
Defined.

(** ** Grouping *)

Lemma partition_returns_or_throws values :
  (Forall (λ v, type v ∉ Object_prototype) values
   ∧ ∃ groups, createPartitionFunction values = Return groups)
  ∨ (Exists (λ v, type v ∈ Object_prototype) values
     ∧ createPartitionFunction values = Throw TypeError).
Proof.
  destruct (decide (Exists (λ v, type v ∈ Object_prototype) values)) as [Hex|Hnex].
  - right. split; [done|]. apply Exists_exists in Hex as (v & Hin & Hproto).
    by apply (for_of_partition_throws values ∅ v).
  - left.
    assert (Hall : Forall (λ v, type v ∉ Object_prototype) values).
    { apply Forall_forall. intros v Hin Hproto. apply Hnex, Exists_exists. eauto. }
    split; [done|].
    destruct (for_of_partition_returns values ∅) as (groups & Hreturn & _);
      [done|done|]. by exists groups.
Qed.

(** X6: [partition] ends in one of two ways: it returns a mapping when no
    value has a discriminator that is a name of [Object.prototype], and it
    throws a [TypeError] when some value has one. *)
Theorem partition_raises_exactly (values : list Union) :
  (createPartitionFunction values = Throw TypeError
   ↔ Exists (λ v, type v ∈ Object_prototype) values)
  ∧ ((∃ groups, createPartitionFunction values = Return groups)
     ↔ Forall (λ v, type v ∉ Object_prototype) values).
Proof.
  assert (Hexcl : Forall (λ v, type v ∉ Object_prototype) values →
                  Exists (λ v, type v ∈ Object_prototype) values → False).
  { intros Hall (v & Hin & Hproto)%Exists_exists.
    by apply (proj1 (Forall_forall _ _) Hall v Hin). }
  destruct (partition_returns_or_throws values)
    as [[Hall [groups Hreturn]]|[Hex Hthrow]]; rewrite ?Hreturn, ?Hthrow.
  - split; split; try done.
    + intros Hex. by destruct Hexcl.
    + intros _. by exists groups.
  - split; split; try done.
    + by intros [groups ?].
    + intros Hall. by destruct Hexcl.
Qed.

(** X7: on a sequence without such a discriminator, [partition] returns a
    mapping whose keys are the discriminators of the values; each key is
    mapped to the values of that discriminator in their order, never to an
    empty array; the groups, in the order in which their discriminators are
    first seen, are a permutation of the sequence, and their lengths add up
    to its length. *)
Theorem partition_returns_groups (values : list Union) :
  Forall (λ value, type value ∉ Object_prototype) values →
  ∃ groups,
    createPartitionFunction values = Return groups
    ∧ (∀ key, key ∈ dom groups ↔ ∃ value, value ∈ values ∧ type value = key)
    ∧ (∀ key group, groups !! key = Some group →
         group ≠ [] ∧ group = group_of key values)
    ∧ mjoin ((λ key, groups !!! key) <$> first_seen values) ≡ₚ values
    ∧ sum_list (length <$> (map_to_list groups).*2) = length values.
Proof. apply partition_groups. Qed.

Lemma partition_returns_groups_witness :
  let values :=
    [ createConstructorFunction "aType" {[ "data" := VString "first" ]};
      createConstructorFunction "bType" {[ "data" := VNumber 1 ]};
      createConstructorFunction "aType" {[ "data" := VString "second" ]} ] in
  ∃ groups,
    createPartitionFunction values = Return groups
    ∧ mjoin ((λ key, groups !!! key) <$> first_seen values) ≡ₚ values
    ∧ sum_list (length <$> (map_to_list groups).*2) = length values.
Proof.
  intros values.
  destruct (partition_returns_groups values) as (groups & Hreturn & _ & _ & Hperm & Hsum).
  { repeat constructor; by_evaluation. }
  by exists groups.
Defined.

Lemma group_of_filter key values :
  group_of key values = createFilterFunction values (One key).
Proof.
  unfold group_of. induction values as [|value values IH]; [done|].
  rewrite createFilterFunction_cons, <-IH.
  destruct (decide (type value = key)) as [Hkey|Hkey].
  - rewrite filter_cons_True by done.
    by rewrite bool_decide_eq_true_2 by by apply elem_of_selector_set.
  - rewrite filter_cons_False by done.
    by rewrite bool_decide_eq_false_2 by by rewrite elem_of_selector_set.
Qed.

(** X8: when [partition] returns, the group under a key is what [filter]
    returns for that key, and the key is absent exactly when [filter]
    returns the empty array. *)
Theorem partition_agrees_with_filter (values : list Union)
    (groups : gmap string (list Union)) :
  createPartitionFunction values = Return groups →
  ∀ key,
    groups !! key = match createFilterFunction values (One key) with
                    | [] => None
                    | group => Some group
                    end.
Proof.
  intros Hreturn key.
  destruct (partition_returns_or_throws values)
    as [[Hall _]|[_ Hthrow]]; [|congruence].
  destruct (for_of_partition_returns values ∅) as (groups' & Hreturn' & Hgroups);
    [done|done|].
  assert (groups' = groups) as -> by (unfold createPartitionFunction in *; congruence).
  rewrite Hgroups, lookup_empty, group_of_filter.
  by destruct (createFilterFunction values (One key)).
Qed.

Lemma partition_agrees_with_filter_witness :
  let a := createConstructorFunction "a" ∅ in
  let b := createConstructorFunction "b" ∅ in
  ({[ "a" := [a; a]; "b" := [b] ]} : gmap string (list Union)) !! "a"
  = match createFilterFunction [a; b; a] (One "a") with
    | [] => None
    | group => Some group
    end.
Proof.
  intros a b.
  apply (partition_agrees_with_filter [a; b; a] {[ "a" := [a; a]; "b" := [b] ]}).
  vm_compute. reflexivity.
Defined.

(** X9: [map] applied to every value of an array, with handlers that keep
    the variant, returns an array with the same discriminators in the same
    places; so [partition] gives both arrays the same keys and groups of the
    same sizes. *)
Theorem map_array_keeps_partition_shape (values : list Union)
    (H : gmap string (Union → Union)) :
  same_variant H →
  Forall (λ v, type v ∉ Object_prototype) values →
  ∃ out groups groups',
    Array_map (λ v, createMapFunction v H) values = Return out
    ∧ type <$> out = type <$> values
    ∧ createPartitionFunction values = Return groups
    ∧ createPartitionFunction out = Return groups'
    ∧ dom groups' = dom groups
    ∧ ∀ key, length (groups' !!! key) = length (groups !!! key).
Proof.
  intros Hsame Hvalues.
  set (f := λ v, match H !! type v with Some handler => handler v | None => v end).
  assert (Htype : ∀ v, type (f v) = type v).
  { intros v. unfold f. destruct (H !! type v) as [handler|] eqn:Hentry; [|done].
    by apply (Hsame (type v)). }
  assert (Htypes : type <$> (f <$> values) = type <$> values).
  { rewrite <-list_fmap_compose. apply list_fmap_ext. intros _ v _. apply Htype. }
  assert (Hout : Forall (λ v, type v ∉ Object_prototype) (f <$> values)).
  { apply Forall_fmap. eapply Forall_impl; [exact Hvalues|].
    intros v Hproto. simpl. by rewrite Htype. }
  destruct (partition_groups values Hvalues) as (groups & Hreturn & Hdom & Hgroup & _).
  destruct (partition_groups (f <$> values) Hout)
    as (groups' & Hreturn' & Hdom' & Hgroup' & _).
  exists (f <$> values), groups, groups'. repeat split; try done.
  - apply Array_map_returns. eapply Forall_impl; [exact Hvalues|].
    intros v Hproto. simpl. by rewrite map_returns by by right.
  - apply set_eq. intros key. rewrite Hdom, Hdom'.
    rewrite <-!elem_of_first_seen.
    assert (Hseen : ∀ l l', type <$> l' = type <$> l → first_seen l' = first_seen l).
    { clear. intros l l'. revert l. induction l' as [|v' l' IH]; intros [|v l] Heq;
        try done. injection Heq as Hv Hl. simpl. by rewrite Hv, (IH l Hl). }
    by rewrite (Hseen values (f <$> values) Htypes).
  - intros key. unfold lookup_total, map_lookup_total.
    pose proof (group_of_length_types key values (f <$> values) Htypes) as Hlen.
    destruct (groups' !! key) as [group'|] eqn:Hkey';
      destruct (groups !! key) as [group|] eqn:Hkey; simpl.
    + destruct (Hgroup' _ _ Hkey') as [_ ->]. by destruct (Hgroup _ _ Hkey) as [_ ->].
    + destruct (Hgroup' _ _ Hkey') as [Hne ->].
      assert (Hin : key ∈ dom groups').
      { apply elem_of_dom. by eexists. }
      apply Hdom' in Hin as (v' & Hin & Hv').
      apply list_elem_of_fmap in Hin as (v & -> & Hin).
      assert (Hin' : key ∈ dom groups).
      { apply Hdom. exists v. split; [done|]. by rewrite <-Htype. }
      apply elem_of_dom in Hin' as [? ?]. congruence.
    + destruct (Hgroup _ _ Hkey) as [Hne ->].
      assert (Hin : key ∈ dom groups).
      { apply elem_of_dom. by eexists. }
      apply Hdom in Hin as (v & Hin & Hv).
      assert (Hin' : key ∈ dom groups').
      { apply Hdom'. exists (f v). split; [by apply list_elem_of_fmap_2|].
        by rewrite Htype. }
      apply elem_of_dom in Hin' as [? ?]. congruence.
    + done.
Qed.

Lemma map_array_keeps_partition_shape_witness :
  let roster :=
    [ createConstructorFunction "loading" {[ "progress" := VNumber 10 ]};
      createConstructorFunction "idle" ∅;
      createConstructorFunction "loading" {[ "progress" := VNumber 55 ]} ] in
  ∃ out groups groups',
    Array_map (λ v, createMapFunction v {[ "loading" := increment_progress ]}) roster
    = Return out
    ∧ type <$> out = type <$> roster
    ∧ createPartitionFunction roster = Return groups
    ∧ createPartitionFunction out = Return groups'
    ∧ dom groups' = dom groups
    ∧ ∀ key, length (groups' !!! key) = length (groups !!! key).
Proof.
  intros roster.
  apply (map_array_keeps_partition_shape roster {[ "loading" := increment_progress ]}).
  - apply increment_progress_same_variant.
  - repeat constructor; by_evaluation.
Defined.

(** ** Filtering *)

Lemma createFilterFunction_set values types types' :
  selector_set types = selector_set types' →
  createFilterFunction values types = createFilterFunction values types'.
Proof.
  intros Hset. induction values as [|value values IH]; [done|].
  by rewrite !createFilterFunction_cons, Hset, IH.
Qed.

Lemma selector_set_elements (S : gset string) :
  selector_set (Many (elements S)) = S.
Proof. unfold selector_set. apply list_to_set_elements_L. Qed.

(** X10: filtering a filtered array is filtering by the discriminators that
    both selectors hold; so two filters commute, and a filter applied twice
    does what it does once. *)
Theorem filter_of_filter (values : list Union) (A B : selector) :
  createFilterFunction (createFilterFunction values A) B
  = createFilterFunction values (Many (elements (selector_set A ∩ selector_set B)))
  ∧ createFilterFunction (createFilterFunction values A) B
    = createFilterFunction (createFilterFunction values B) A
  ∧ createFilterFunction (createFilterFunction values A) A
    = createFilterFunction values A.
Proof.
  assert (Hboth : ∀ A B,
             createFilterFunction (createFilterFunction values A) B
             = createFilterFunction values
                 (Many (elements (selector_set A ∩ selector_set B)))).
  { clear. intros A B. induction values as [|value values IH]; [done|].
    rewrite !createFilterFunction_cons, selector_set_elements.
    destruct (decide (type value ∈ selector_set A)) as [HA|HA];
      destruct (decide (type value ∈ selector_set B)) as [HB|HB].
    - rewrite (bool_decide_eq_true_2 _ HA), createFilterFunction_cons.
      rewrite (bool_decide_eq_true_2 _ HB).
      rewrite bool_decide_eq_true_2 by by apply elem_of_intersection.
      by rewrite IH.
    - rewrite (bool_decide_eq_true_2 _ HA), createFilterFunction_cons.
      rewrite (bool_decide_eq_false_2 _ HB).
      by rewrite bool_decide_eq_false_2 by (rewrite elem_of_intersection; tauto).
    - rewrite (bool_decide_eq_false_2 _ HA).
      by rewrite bool_decide_eq_false_2 by (rewrite elem_of_intersection; tauto).
    - rewrite (bool_decide_eq_false_2 _ HA).
      by rewrite bool_decide_eq_false_2 by (rewrite elem_of_intersection; tauto). }
  split; [apply Hboth|]. split.
  - rewrite !Hboth. apply createFilterFunction_set.
    rewrite !selector_set_elements. apply (comm_L (∩)).
  - rewrite Hboth. apply createFilterFunction_set.
    rewrite selector_set_elements. apply (idemp_L (∩)).
Qed.

(** X11: what [filter] returns depends on the set of discriminators in its
    selector only: a single discriminator stands for the array that holds
    it, and neither the order nor the repetitions in an array count. *)
Theorem filter_selector_as_set (values : list Union) (types types' : selector) :
  (∀ key, in_selector types key ↔ in_selector types' key) →
  createFilterFunction values types = createFilterFunction values types'.
Proof.
  intros Hsame. apply createFilterFunction_set, set_eq. intros key.
  by rewrite !elem_of_selector_set.
Qed.

Lemma filter_selector_as_set_witness :
  let a := createConstructorFunction "aType" ∅ in
  let b := createConstructorFunction "bType" ∅ in
  createFilterFunction [a; b; a] (One "aType")
  = createFilterFunction [a; b; a] (Many ["aType"; "aType"]).
Proof.
  intros a b.
  apply (filter_selector_as_set [a; b; a] (One "aType") (Many ["aType"; "aType"])).
  intros key. simpl. rewrite !elem_of_cons, elem_of_nil. tauto.
Defined.

(** X12: [filterBy] keeps, of what [filter] returns for the keys of the
    predicate map, the values that their predicate accepts; with predicates
    that accept everything it returns what that [filter] returns. *)
Theorem filterBy_refines_filter (values : list Union)
    (P : gmap string (Union → bool)) :
  createFilterByFunction values P
  = Return (List.filter
              (λ v, match P !! type v with Some predicate => predicate v | None => false end)
              (createFilterFunction values (Many (Object_keys P))))
  ∧ ((∀ key predicate v, P !! key = Some predicate → predicate v = true) →
     createFilterByFunction values P
     = Return (createFilterFunction values (Many (Object_keys P)))).
Proof.
  rewrite filterBy_returns.
  assert (Hkey : ∀ v, bool_decide (type v ∈ selector_set (Many (Object_keys P)))
                      = bool_decide (is_Some (P !! type v))).
  { intros v. apply bool_decide_ext.
    rewrite elem_of_selector_set. apply elem_of_Object_keys. }
  split.
  - f_equal. induction values as [|v values IH]; [done|].
    rewrite createFilterFunction_cons, Hkey. simpl.
    destruct (P !! type v) as [predicate|] eqn:Hp.
    + rewrite bool_decide_eq_true_2 by by eexists. simpl. rewrite Hp.
      destruct (predicate v); by rewrite IH.
    + rewrite bool_decide_eq_false_2 by by intros [? ?]. exact IH.
  - intros Hall. f_equal. induction values as [|v values IH]; [done|].
    rewrite createFilterFunction_cons, Hkey. simpl.
    destruct (P !! type v) as [predicate|] eqn:Hp.
    + rewrite bool_decide_eq_true_2 by by eexists.
      by rewrite (Hall _ _ v Hp), IH.
    + rewrite bool_decide_eq_false_2 by by intros [? ?]. exact IH.
Qed.

Lemma create_get_is cache Name :
  cache_reachable cache →
  (create_get cache ("is" +:+ Name)).1 = Guard (typeGuard Name).
Proof.
  intros Hreach. unfold create_get.
  change (String.prefix "is" ("is" +:+ Name)) with (String.prefix "" Name).
  replace (String.prefix "" Name) with true by by destruct Name.
  destruct (cache !! ("is" +:+ Name)) as [cached|] eqn:Hcached; [|done].
  simpl. by rewrite (cache_reachable_lookup _ _ _ Hreach Hcached).
Qed.

(** X13: filtering an array with the type guard that the helpers hand out
    under [is{Name}] gives what [filter] returns for the two discriminators
    [Name] and [Name] with its first letter in lower case. *)
Theorem guard_filters_as_filter cache Name (values : list Union) :
  cache_reachable cache →
  ∃ guard,
    (create_get cache ("is" +:+ Name)).1 = Guard guard
    ∧ List.filter guard values
      = createFilterFunction values (Many [uncapitalize Name; Name]).
Proof.
  intros Hreach. exists (typeGuard Name). split.
  - by apply create_get_is.
  - induction values as [|v values IH]; [done|].
    rewrite createFilterFunction_cons. simpl. rewrite IH.
    unfold typeGuard at 1.
    destruct (decide (type v = uncapitalize Name)) as [Hv|Hv];
      destruct (decide (type v = Name)) as [Hv'|Hv'];
      rewrite ?(bool_decide_eq_true_2 _ Hv), ?(bool_decide_eq_false_2 _ Hv),
        ?(bool_decide_eq_true_2 _ Hv'), ?(bool_decide_eq_false_2 _ Hv'); simpl.
    all: first [ by rewrite bool_decide_eq_true_2
                   by (apply elem_of_selector_set; simpl;
                       rewrite !elem_of_cons; tauto)
               | by rewrite bool_decide_eq_false_2
                   by (rewrite elem_of_selector_set; simpl;
                       rewrite !elem_of_cons, elem_of_nil; tauto) ].
Qed.

Lemma guard_filters_as_filter_witness :
  let a := createConstructorFunction "aType" ∅ in
  let b := createConstructorFunction "bType" ∅ in
  ∃ guard,
    (create_get (create_get ∅ "isBType").2 ("is" +:+ "AType")).1 = Guard guard
    ∧ List.filter guard [a; b; a]
      = createFilterFunction [a; b; a] (Many [uncapitalize "AType"; "AType"]).
Proof.
  intros a b.
  apply (guard_filters_as_filter (create_get ∅ "isBType").2 "AType" [a; b; a]).
  apply reachable_get, reachable_create.
Defined.

(** ** The helpers object and its guard cache *)


(** X15: in every state of the helpers object, a guard answers as it does
    on a fresh helpers object, whatever was read before; and the cache holds
    entries under names that start with [is] only. *)
Theorem guards_do_not_depend_on_cache (cache : gmap string (Union → bool)) :
  cache_reachable cache →
  (∀ prop v, call_guard cache prop v = call_guard ∅ prop v)
  ∧ (∀ prop guard, cache !! prop = Some guard → String.prefix "is" prop = true).
Proof.
  intros Hreach. split.
  - intros prop v. unfold call_guard, create_get.
    destruct (String.prefix "is" prop); [|done].
    rewrite lookup_empty. destruct (cache !! prop) as [cached|] eqn:Hcached; [|done].
    simpl. by rewrite (cache_reachable_lookup _ _ _ Hreach Hcached).
  - induction Hreach as [|cache prop' _ IH]; intros prop guard; [done|].
    unfold create_get. destruct (String.prefix "is" prop') eqn:Hprefix; [|apply IH].
    destruct (cache !! prop'); [apply IH|]. simpl.
    destruct (decide (prop' = prop)) as [<-|Hne]; [done|].
    rewrite lookup_insert_ne by done. apply IH.
Qed.

Lemma guards_do_not_depend_on_cache_witness :
  call_guard (create_get (create_get ∅ "isAType").2 "isBType").2 "isAType"
    (createConstructorFunction "aType" ∅)
  = call_guard ∅ "isAType" (createConstructorFunction "aType" ∅).
Proof.
  apply (guards_do_not_depend_on_cache (create_get (create_get ∅ "isAType").2 "isBType").2).
  do 2 apply reachable_get. apply reachable_create.
Defined.

(** X16: every name that starts with [is] is answered with a guard, whether
    a variant of that name exists or not; and none of the ten operations of
    the core object has such a name, so each is handed on to the core
    object and the cache is left alone. *)
Theorem proxy_never_hides_an_operation (cache : gmap string (Union → bool)) :
  (∀ prop, String.prefix "is" prop = true →
           ∃ guard, (create_get cache prop).1 = Guard guard)
  ∧ Forall (λ prop, create_get cache prop = (Core prop, cache)) createHelpersCore.
Proof.
  split.
  - intros prop Hprefix. unfold create_get. rewrite Hprefix.
    destruct (cache !! prop); by eexists.
  - repeat constructor.
Qed.

(** ** Names *)

Lemma toLowerCase_idemp c : toLowerCase (toLowerCase c) = toLowerCase c.
Proof. by_bits c. Qed.

Lemma toUpperCase_toLowerCase c : toUpperCase (toLowerCase c) = toUpperCase c.
Proof. by_bits c. Qed.

Lemma uncapitalize_idemp str : uncapitalize (uncapitalize str) = uncapitalize str.
Proof.
  destruct str as [|c rest]; [done|].
  unfold uncapitalize. simpl. by rewrite toLowerCase_idemp.
Qed.

Lemma Capitalize_uncapitalize str : Capitalize (uncapitalize str) = Capitalize str.
Proof.
  destruct str as [|c rest]; [done|].
  unfold uncapitalize, Capitalize. simpl. by rewrite toUpperCase_toLowerCase.
Qed.

(** X17: [uncapitalize] touches the first character only and keeps the
    length; applied twice it does what it does once; and a name and its
    uncapitalized form are capitalized to the same name. *)
Theorem uncapitalize_first_letter_only (str : string) :
  ascii_text str = true →
  uncapitalize (uncapitalize str) = uncapitalize str
  ∧ String.length (uncapitalize str) = String.length str
  ∧ slice 1 (uncapitalize str) = slice 1 str
  ∧ Capitalize (uncapitalize str) = Capitalize str.
Proof.
  intros _. split; [apply uncapitalize_idemp|].
  split; [|split; [|apply Capitalize_uncapitalize]]; by destruct str.
Qed.

Lemma uncapitalize_first_letter_only_witness :
  uncapitalize (uncapitalize "AType") = uncapitalize "AType"
  ∧ String.length (uncapitalize "AType") = String.length "AType"
  ∧ slice 1 (uncapitalize "AType") = slice 1 "AType"
  ∧ Capitalize (uncapitalize "AType") = Capitalize "AType".
Proof. apply (uncapitalize_first_letter_only "AType"). reflexivity. Defined.

(** X18: the guard of a name that is its own uncapitalized form accepts the
    values of that one discriminator and no other; and the discriminators of
    two values that one guard accepts differ at most in the case of their
    first letter. *)
Theorem guard_accepts_one_name_up_to_case (Name : string) :
  ascii_text Name = true →
  (∀ v, typeGuard (uncapitalize Name) v = true ↔ type v = uncapitalize Name)
  ∧ (∀ v w, typeGuard Name v = true → typeGuard Name w = true →
            Capitalize (type v) = Capitalize (type w)).
Proof.
  intros _. split.
  - intros v. rewrite typeGuard_true_iff, uncapitalize_idemp. tauto.
  - intros v w [-> | ->]%typeGuard_true_iff [-> | ->]%typeGuard_true_iff;
      by rewrite ?Capitalize_uncapitalize.
Qed.

Lemma guard_accepts_one_name_up_to_case_witness :
  typeGuard (uncapitalize "AType") (createConstructorFunction "aType" ∅) = true
  ↔ type (createConstructorFunction "aType" ∅) = uncapitalize "AType".
Proof.
  apply (guard_accepts_one_name_up_to_case "AType"). reflexivity.
Defined.

(** ** Constructors *)

(** X19: building a value again from its own fields and discriminator gives
    a value with the same fields; a value built from the fields of a built
    value carries the later discriminator only; and the fields of a built
    value are those of the payload and [type]. *)
Theorem constructor_rebuilds (v : Union) (t t' : string) (p : gmap string val) :
  fields (createConstructorFunction (type v) (fields v)) = fields v
  ∧ fields (createConstructorFunction t' (fields (createConstructorFunction t p)))
    = fields (createConstructorFunction t' p)
  ∧ dom (fields (createConstructorFunction t p)) = {["type"]} ∪ dom p.
Proof.
  rewrite !constructor_fields. split; [|split].
  - apply insert_id, type_field.
  - apply insert_insert_eq.
  - apply dom_insert_L.
Qed.

(** ** Exhaustive dispatch over arrays *)

(** X20: with a handler map that has an entry for the discriminator of
    every value of an array, [when] applied to every value returns: the
    result holds, place by place, what the entry of each value's
    discriminator returns for it, and no error is raised. *)
Theorem when_array_returns {R : Type} (values : list Union)
    (H : gmap string (Union → R)) :
  (∀ v, v ∈ values → type v ∈ dom H) →
  ∃ out,
    Array_map (λ v, createWhenFunction v H) values = Return out
    ∧ length out = length values
    ∧ ∀ i v, values !! i = Some v →
             ∃ handler, H !! type v = Some handler ∧ out !! i = Some (handler v).
Proof.
  intros Hexhaustive. induction values as [|v values IH]; simpl.
  - exists []. split; [done|]. split; [done|]. by intros i v.
  - assert (Hdom : type v ∈ dom H) by (apply Hexhaustive; left).
    apply elem_of_dom in Hdom as [handler Hentry].
    destruct IH as (out & -> & Hlength & Hplaces).
    { intros w Hin. apply Hexhaustive. by right. }
    unfold createWhenFunction at 1. rewrite (get_own _ _ _ Hentry). simpl.
    exists (handler v :: out). split; [done|]. split; [by rewrite <-Hlength|].
    intros [|i] w; simpl.
    + intros [= <-]. by exists handler.
    + apply Hplaces.
Qed.

Lemma when_array_returns_witness :
  let H : gmap string (Union → string) :=
    {[ "toString" := λ _, "text"; "idle" := λ _, "waiting" ]} in
  ∃ out,
    Array_map (λ v, createWhenFunction v H)
      [ createConstructorFunction "idle" ∅; createConstructorFunction "toString" ∅ ]
    = Return out
    ∧ length out = 2.
Proof.
  intros H.
  destruct (when_array_returns
              [ createConstructorFunction "idle" ∅; createConstructorFunction "toString" ∅ ] H)
    as (out & Hout & Hlength & _).
  - intros v [->|[->|Hnil%elem_of_nil]%elem_of_cons]%elem_of_cons;
      [by_evaluation|by_evaluation|done].
  - by exists out.
Defined.

(** ** Grouping of a concatenation *)

Lemma partition_lookup_total values groups key :
  createPartitionFunction values = Return groups →
  groups !!! key = group_of key values.
Proof.
  intros Hreturn.
  destruct (partition_returns_or_throws values)
    as [[Hall _]|[_ Hthrow]]; [|congruence].
  destruct (for_of_partition_returns values ∅) as (groups' & Hreturn' & Hgroups);
    [done|done|].
  assert (groups' = groups) as -> by (unfold createPartitionFunction in *; congruence).
  unfold lookup_total, map_lookup_total. rewrite Hgroups, lookup_empty.
  by destruct (group_of key values).
Qed.

(** X21: when [partition] returns for two arrays it returns for their
    concatenation, and the group of each discriminator is then the group of
    the first array followed by the group of the second (a missing group
    counting as empty). *)
Theorem partition_app (values values' : list Union)
    (groups groups' : gmap string (list Union)) :
  createPartitionFunction values = Return groups →
  createPartitionFunction values' = Return groups' →
  ∃ all,
    createPartitionFunction (values ++ values') = Return all
    ∧ ∀ key, all !!! key = (groups !!! key ++ groups' !!! key)%list.
Proof.
  intros Hreturn Hreturn'.
  destruct (partition_returns_or_throws values)
    as [[Hall _]|[_ Hthrow]]; [|congruence].
  destruct (partition_returns_or_throws values')
    as [[Hall' _]|[_ Hthrow]]; [|congruence].
  destruct (partition_returns_or_throws (values ++ values'))
    as [[_ [all Happ]]|[Hex _]].
  - exists all. split; [done|]. intros key.
    rewrite (partition_lookup_total _ _ key Happ).
    rewrite (partition_lookup_total _ _ key Hreturn).
    rewrite (partition_lookup_total _ _ key Hreturn').
    unfold group_of. apply filter_app.
  - apply Exists_app in Hex as [(v & Hin & Hproto)%Exists_exists
                               |(v & Hin & Hproto)%Exists_exists].
    + by destruct (proj1 (Forall_forall _ _) Hall v Hin).
    + by destruct (proj1 (Forall_forall _ _) Hall' v Hin).
Qed.

Lemma partition_app_witness :
  let a := createConstructorFunction "a" ∅ in
  let b := createConstructorFunction "b" ∅ in
  ∃ all,
    createPartitionFunction ([a; b] ++ [a]) = Return all
    ∧ all !!! "a" = [a; a].
Proof.
  intros a b.
  destruct (partition_app [a; b] [a] {[ "a" := [a]; "b" := [b] ]} {[ "a" := [a] ]})
    as (all & Hall & Hgroups); [vm_compute; reflexivity|vm_compute; reflexivity|].
  exists all. split; [done|]. by rewrite Hgroups.
Defined.
